(** * kml/dom/element.h: the Element and Field classes of the KML object model

    A shallow embedding of the inline member functions of [kmldom::Element]
    (release 0.5) and of the extraction functions of [kmldom::Field],
    together with the properties of the single-parent rule and of the attach
    helpers.

    Objects live in a heap addressed by their address; an [ElementPtr] or a
    raw [Element*] is either [NULL] or the address of an object.  A member
    function is a function of the address [this], of the object's fields and
    of its arguments; a call through a pointer ([child->set_parent(this)])
    loads the object, runs the member function and stores the object back.
    Dereferencing a pointer that is not live is undefined in C++ and has no
    result here.

    The heap records the data members of the objects that have been
    created.  An object is destroyed when the last [ElementPtr] to it is
    released; the count of references is a member of [kmlbase::Referent],
    which is outside this header, and destruction is not modelled: an entry
    of the heap says what the members of an object hold for as long as the
    object exists. *)

From stdpp Require Import base option list strings gmap.

(** ** Data model *)

(** The address of an object. *)
Definition addr := positive.
Bind Scope positive_scope with addr.

(** [Element*] and [ElementPtr] (an intrusive smart pointer): [None] is the
    null pointer.  The reference count that the smart pointer maintains is a
    member of [kmlbase::Referent], outside this header; a pointer is
    modelled by the object it designates. *)
Abbreviation ptr := (option addr) (only parsing).
Abbreviation NULL := (@None addr) (only parsing).

(** [KmlDomType] is a C enumeration (kml/dom/kml22.h): its values are
    integers. *)
Definition KmlDomType := Z.
Bind Scope Z_scope with KmlDomType.

(** The data members of [Element], in declaration order.  The lazily
    allocated [unknown_attributes_] is not touched by any function of this
    header and is left out. *)
Record Element := mkElement {
  default_xmlns_ : string;
  parent_ : ptr;
  type_id_ : KmlDomType;
  char_data_ : string;
  unknown_elements_array_ : list string;
  unknown_legal_elements_array_ : list ptr
}.

#[global] Instance Element_eq_dec : EqDecision Element.
Proof. solve_decision. Defined.

(** Field updates, one per assigned member. *)
Definition with_default_xmlns (xmlns : string) (e : Element) : Element :=
  mkElement xmlns (parent_ e) (type_id_ e) (char_data_ e)
            (unknown_elements_array_ e) (unknown_legal_elements_array_ e).

Definition with_parent (p : ptr) (e : Element) : Element :=
  mkElement (default_xmlns_ e) p (type_id_ e) (char_data_ e)
            (unknown_elements_array_ e) (unknown_legal_elements_array_ e).

Definition with_char_data (s : string) (e : Element) : Element :=
  mkElement (default_xmlns_ e) (parent_ e) (type_id_ e) s
            (unknown_elements_array_ e) (unknown_legal_elements_array_ e).

(** An out-pointer [T* val]: null, or the address of a cell of type [T],
    which is modelled by its content.  A function that takes an out-pointer
    returns, next to its result, the content of the cell when it returns. *)
Abbreviation out T := (option T) (only parsing).

(** The live objects. *)
Abbreviation heap := (gmap addr Element) (only parsing).

(** ** Member functions of [Element] *)

Module Element.

(** [virtual KmlDomType Type() const { return type_id_; }] *)
Definition Type_ (e : Element) : KmlDomType := type_id_ e.

Section IsA.
(** The enumerator [Type_Unknown] is declared in kml/dom/kml22.h. *)
Variable Type_Unknown : KmlDomType.

(** [virtual bool IsA(KmlDomType type) const { return type == Type_Unknown; }] *)
Definition IsA (e : Element) (type : KmlDomType) : bool :=
  bool_decide (type = Type_Unknown).
End IsA.

Definition set_default_xmlns (xmlns : string) (e : Element) : Element :=
  with_default_xmlns xmlns e.

Definition get_default_xmlns (e : Element) : string := default_xmlns_ e.

(** [if (parent_ || (parent.get() == this)) return false;
     parent_ = parent.get(); return true;] *)
Definition set_parent (this : addr) (parent : ptr) (e : Element) : bool * Element :=
  if bool_decide (parent_ e ≠ NULL) || bool_decide (parent = Some this)
  then (false, e)
  else (true, with_parent parent e).

Definition get_char_data (e : Element) : string := char_data_ e.

Definition set_char_data (char_data : string) (e : Element) : Element :=
  with_char_data char_data e.





Section Extraction.
(** The representation of the C++ [double]. *)
Context {double : Type}.

(** "Permits polymorphic use of Field methods": the base versions of the
    five virtual extraction functions, each [{ return false; }]. *)
Definition SetBool (e : Element) (val : out bool) : bool * out bool := (false, val).
Definition SetDouble (e : Element) (val : out double) : bool * out double := (false, val).
Definition SetInt (e : Element) (val : out Z) : bool * out Z := (false, val).
Definition SetEnum (e : Element) (val : out Z) : bool * out Z := (false, val).
Definition SetString (e : Element) (val : out string) : bool * out string := (false, val).
End Extraction.

End Element.

(** ** Calls through a pointer *)

(** [n->set_parent(parent)] for a live [n]. *)
Definition call_set_parent (n : addr) (parent : ptr) (h : heap) : option (bool * heap) :=
  e ← h !! n;
  let '(b, e') := Element.set_parent n parent e in
  Some (b, <[n := e']> h).

(** The parent pointer of a live object. *)
Definition parent_of (h : heap) (n : addr) : option ptr := parent_ <$> h !! n.

(** [n] is live and its parent pointer is [p]. *)
Definition has_parent (h : heap) (n p : addr) : Prop :=
  ∃ e, h !! n = Some e ∧ parent_ e = Some p.

(** ** The attach helpers *)

(** [SetComplexChild(child, field)]: [field] is the content of the slot
    [*field] on entry, the second component of the result its content on
    return.  The assignment to [*field] releases the slot's reference to
    its previous occupant ("and possibly deletes Element"); the heap that is
    returned holds the data members after the call and keeps the entry of
    the previous occupant, whose members the call does not write.
    [if (child == NULL) { *field = NULL; return true; }
     else if (child->set_parent(this)) { *field = child; return true; }
     return false;] *)
Definition SetComplexChild (this : addr) (child : ptr) (field : ptr) (h : heap)
  : option (bool * ptr * heap) :=
  match child with
  | None => Some (true, NULL, h)
  | Some c =>
      '(b, h') ← call_set_parent c (Some this) h;
      if b : bool then Some (true, child, h') else Some (false, field, h')
  end.

(** [AddComplexChild(child, vec)]: [vec] is the content of [*vec].
    [if (child && child->set_parent(this)) { vec->push_back(child); return true; }
     return false;] *)
Definition AddComplexChild (this : addr) (child : ptr) (vec : list ptr) (h : heap)
  : option (bool * list ptr * heap) :=
  match child with
  | None => Some (false, vec, h)
  | Some c =>
      '(b, h') ← call_set_parent c (Some this) h;
      if b : bool then Some (true, vec ++ [child], h') else Some (false, vec, h')
  end.

(** ** Sequences of calls

    What a client of the header can do to the heap: create an object at a
    fresh address, call one of the public mutators on a live object, or
    (through a concrete element) one of the attach helpers.  The slot or
    vector an attach helper writes belongs to the concrete element and is
    not part of the heap. *)
Inductive call :=
  | New (n : addr) (e : Element)
  | Call_set_default_xmlns (n : addr) (xmlns : string)
  | Call_set_parent (n : addr) (parent : ptr)
  | Call_set_char_data (n : addr) (char_data : string)
  | Call_SetComplexChild (this : addr) (child field : ptr)
  | Call_AddComplexChild (this : addr) (child : ptr) (vec : list ptr).

Definition exec (c : call) (h : heap) : option heap :=
  match c with
  | New n e => if h !! n is None then Some (<[n := e]> h) else None
  | Call_set_default_xmlns n xmlns =>
      e ← h !! n; Some (<[n := Element.set_default_xmlns xmlns e]> h)
  | Call_set_parent n parent => snd <$> call_set_parent n parent h
  | Call_set_char_data n char_data =>
      e ← h !! n; Some (<[n := Element.set_char_data char_data e]> h)
  | Call_SetComplexChild this child field => snd <$> SetComplexChild this child field h
  | Call_AddComplexChild this child vec => snd <$> AddComplexChild this child vec h
  end.

Fixpoint run (cs : list call) (h : heap) : option heap :=
  match cs with
  | [] => Some h
  | c :: cs' => h' ← exec c h; run cs' h'
  end.

(** ** [Field]

    A [Field] is an [Element] (it adds only [xsd_], a reference to the
    schema) that overrides the five extraction functions. *)

Module Field.

(** Modelled from the spec: the bodies of [Field::SetBool], [SetDouble],
    [SetInt], [SetEnum] and [SetString] are in element.cc, which is missing;
    element.h only declares them.  The model follows section 4.2 of the
    spec: each function "parses char_data (inherited from Node) into the
    requested type using the conventions of the type registry; if the
    out-pointer argument is absent (null), the operation fails without
    attempting conversion; if present, it fails when char_data does not
    lexically match the target type [...], leaving the destination
    unmodified; on success it writes the converted value and returns
    success."  [parse] is the conversion of the type registry: it has no
    result on text that does not lexically match the target type. *)
Definition Set_ {T : Type} (parse : string → option T) (f : Element) (val : out T)
  : bool * out T :=
  match val with
  | None => (false, None)
  | Some old =>
      match parse (Element.get_char_data f) with
      | Some v => (true, Some v)
      | None => (false, Some old)
      end
  end.

Section Conversions.
Context {double : Type}.
(** The conversions of the type registry, one per target type; the one for
    enumerations depends on the type id of the field. *)
Variable parse_bool : string → option bool.
Variable parse_double : string → option double.
Variable parse_int : string → option Z.
Variable parse_enum : KmlDomType → string → option Z.
Variable parse_string : string → option string.

Definition SetBool (f : Element) (val : out bool) := Set_ parse_bool f val.
Definition SetDouble (f : Element) (val : out double) := Set_ parse_double f val.
Definition SetInt (f : Element) (val : out Z) := Set_ parse_int f val.
Definition SetEnum (f : Element) (enum_val : out Z) :=
  Set_ (parse_enum (Element.Type_ f)) f enum_val.
Definition SetString (f : Element) (val : out string) := Set_ parse_string f val.
End Conversions.

End Field.

(** The extraction contract of claim C8 for one extraction [op] of the
    field [f], where [parse] tells which character data lexically matches
    the target type (it has a result) and which value it converts to: a
    null out-pointer fails; with a non-null out-pointer, text that does not
    match fails and leaves the destination as it was, and text that matches
    succeeds and writes the converted value. *)
Definition lexical_contract {T : Type} (parse : string → option T)
    (f : Element) (op : out T → bool * out T) : Prop :=
  op None = (false, None) ∧
  (∀ old : T, parse (Element.get_char_data f) = None →
     op (Some old) = (false, Some old)) ∧
  (∀ (old v : T), parse (Element.get_char_data f) = Some v →
     op (Some old) = (true, Some v)).

(** ** One owner, its slot and its collection

    The calls that bear on a slot [field] and a collection [vec] of the
    concrete element [this]: its own [SetComplexChild] on the slot, its own
    [AddComplexChild] on the collection, and any call that leaves both alone
    (calls by other elements, or by [this] on other slots and collections).
    The state is the heap with the current content of the slot and of the
    collection. *)
Inductive owner_call :=
  | Own_SetComplexChild (child : ptr)
  | Own_AddComplexChild (child : ptr)
  | Other (c : call).

Definition exec_owner (this : addr) (oc : owner_call)
    (s : gmap addr Element * ptr * list ptr)
  : option (gmap addr Element * ptr * list ptr) :=
  let '(h, field, vec) := s in
  match oc with
  | Own_SetComplexChild child =>
      '(b, field', h') ← SetComplexChild this child field h;
      Some (h', field', vec)
  | Own_AddComplexChild child =>
      '(b, vec', h') ← AddComplexChild this child vec h;
      Some (h', field, vec')
  | Other c => h' ← exec c h; Some (h', field, vec)
  end.

Fixpoint run_owner (this : addr) (ocs : list owner_call)
    (s : gmap addr Element * ptr * list ptr)
  : option (gmap addr Element * ptr * list ptr) :=
  match ocs with
  | [] => Some s
  | oc :: ocs' => s' ← exec_owner this oc s; run_owner this ocs' s'
  end.

(** ** Example objects *)

(** A freshly parsed element: no parent, no text. *)
Definition blank (type_id : KmlDomType) : Element :=
  mkElement "" NULL type_id "" [] [].

(** Three unattached elements at addresses 1, 2 and 3. *)
Definition three_roots : heap :=
  <[1%positive := blank 1]> (<[2%positive := blank 2]> (<[3%positive := blank 3]> ∅)).

(** Element 2 installed in a slot of element 1. *)
Definition two_in_slot : heap :=
  <[2%positive := with_parent (Some 1%positive) (blank 2)]> three_roots.

(** ** Ownership

    What the attach helpers maintain about the slot and the collection of a
    concrete element [this]. *)

(** A slot of [this]: null, or a child whose parent is [this]. *)
Definition slot_of (h : heap) (this : addr) (field : ptr) : Prop :=
  ∀ c, field = Some c → has_parent h c this.

(** A collection of [this]: its entries are distinct, none is null, and each
    is a child whose parent is [this]. *)
Definition children_of (h : heap) (this : addr) (vec : list ptr) : Prop :=
  NoDup vec ∧ ∀ p, p ∈ vec → ∃ c, p = Some c ∧ has_parent h c this.


(** ** Properties of [set_parent] *)

Lemma set_parent_has_parent this parent e :
  parent_ e ≠ NULL → Element.set_parent this parent e = (false, e).
Proof.
  intros Hp. unfold Element.set_parent.
  by rewrite (bool_decide_eq_true_2 _ Hp).
Qed.

Lemma set_parent_self this e :
  Element.set_parent this (Some this) e = (false, e).
Proof.
  unfold Element.set_parent.
  rewrite (bool_decide_eq_true_2 (Some this = Some this)); [|done].
  by rewrite orb_true_r.
Qed.

(** *** Through the heap *)

Lemma call_set_parent_has_parent n a (h : heap) e :
  h !! n = Some e → parent_ e ≠ NULL → call_set_parent n a h = Some (false, h).
Proof.
  intros Hn Hp. unfold call_set_parent. rewrite Hn. simpl.
  rewrite set_parent_has_parent by done. by rewrite insert_id.
Qed.

Lemma call_set_parent_self n (h : heap) e :
  h !! n = Some e → call_set_parent n (Some n) h = Some (false, h).
Proof.
  intros Hn. unfold call_set_parent. rewrite Hn. simpl.
  rewrite set_parent_self. by rewrite insert_id.
Qed.

Lemma call_set_parent_inv n a (h h1 : heap) b :
  call_set_parent n a h = Some (b, h1) →
  ∃ e, h !! n = Some e ∧
       if b then parent_ e = NULL ∧ a ≠ Some n ∧ h1 = <[n := with_parent a e]> h
       else (parent_ e ≠ NULL ∨ a = Some n) ∧ h1 = h.
Proof.
  unfold call_set_parent. destruct (h !! n) as [e|] eqn:Hn; [|done]. simpl.
  unfold Element.set_parent. intros Hc. exists e. split; [done|].
  destruct (decide (parent_ e ≠ NULL)) as [Hp|Hp].
  - rewrite (bool_decide_eq_true_2 _ Hp) in Hc. simpl in Hc.
    injection Hc as <- <-. rewrite insert_id by done. auto.
  - rewrite (bool_decide_eq_false_2 _ Hp) in Hc. simpl in Hc.
    destruct (decide (a = Some n)) as [Ha|Ha].
    + rewrite (bool_decide_eq_true_2 _ Ha) in Hc.
      injection Hc as <- <-. rewrite insert_id by done. auto.
    + rewrite (bool_decide_eq_false_2 _ Ha) in Hc.
      injection Hc as <- <-. split_and!; [|done..].
      destruct (parent_ e); [by destruct Hp|done].
Qed.

Lemma call_set_parent_total n a (h : heap) :
  is_Some (h !! n) → ∃ b h1, call_set_parent n a h = Some (b, h1).
Proof.
  intros [e Hn]. unfold call_set_parent. rewrite Hn. simpl.
  destruct (Element.set_parent n a e) as [b e']. eauto.
Qed.

Lemma has_parent_call_set_parent n a (h : heap) p :
  has_parent h n p → call_set_parent n a h = Some (false, h).
Proof.
  intros (e & Hn & Hp). apply (call_set_parent_has_parent n a h e Hn).
  by rewrite Hp.
Qed.

(** ** The single-parent rule *)

(** C4: [set_parent] called on an element with the element itself as the
    candidate parent returns false and leaves the element as it was,
    whatever the element's fields are, so whether or not it already has a
    parent; through a pointer to a live element the call returns false and
    leaves the heap as it was. *)
Theorem set_parent_on_itself_fails (this : addr) (e : Element) :
  Element.set_parent this (Some this) e = (false, e) ∧
  ∀ h : heap, h !! this = Some e →
    call_set_parent this (Some this) h = Some (false, h).
Proof.
  split; [apply set_parent_self|].
  intros h Hlive. by apply call_set_parent_self with e.
Qed.

(** C1, as stated, fails: a first call that did not set the parent does not
    block a second one.  On the unattached element 1, a first call with the
    element itself fails and a first call with the null pointer reports
    success, both leaving the parent null; a later call with element 2 then
    succeeds and changes the parent. *)
Lemma set_parent_second_call_succeeds :
  call_set_parent 1 (Some 1%positive) three_roots = Some (false, three_roots) ∧
  call_set_parent 1 NULL three_roots = Some (true, three_roots) ∧
  parent_of three_roots 1 = Some NULL ∧
  ∃ h2, call_set_parent 1 (Some 2%positive) three_roots = Some (true, h2) ∧
        parent_of h2 1 = Some (Some 2%positive).
Proof.
  split_and!; [reflexivity..|].
  eexists. split; reflexivity.
Qed.

(** C1, amended: once a call of [set_parent] on [n] with a non-null argument
    has returned true, any further call on [n], with any argument, returns
    false and leaves the heap, hence the parent of [n], unchanged: the
    parent is still the first call's argument. *)
Theorem set_parent_second_call_fails (n p : addr) (a : ptr) (h h1 : heap) :
  call_set_parent n (Some p) h = Some (true, h1) →
  call_set_parent n a h1 = Some (false, h1) ∧ parent_of h1 n = Some (Some p).
Proof.
  intros Hfirst.
  destruct (call_set_parent_inv _ _ _ _ _ Hfirst) as (e & Hn & _ & _ & ->).
  assert (Hp : has_parent (<[n := with_parent (Some p) e]> h) n p).
  { exists (with_parent (Some p) e). by rewrite lookup_insert_eq. }
  split; [by apply has_parent_call_set_parent with p|].
  unfold parent_of. by rewrite lookup_insert_eq.
Qed.

Lemma set_parent_second_call_fails_witness :
  let h1 := <[1%positive := with_parent (Some 2%positive) (blank 1)]> three_roots in
  call_set_parent 1 (Some 2%positive) three_roots = Some (true, h1) ∧
  call_set_parent 1 (Some 3%positive) h1 = Some (false, h1) ∧
  parent_of h1 1 = Some (Some 2%positive).
Proof.
  split; [reflexivity|].
  apply (set_parent_second_call_fails 1 2 (Some 3%positive) three_roots).
  reflexivity.
Defined.

(** ** Character data *)

(** C10: [set_char_data] replaces the stored character data: after
    [set_char_data(s)], [get_char_data] returns exactly [s], whatever the
    element held before, in particular after an earlier [set_char_data]. *)
Theorem set_char_data_replaces (e : Element) (s0 s : string) :
  Element.get_char_data (Element.set_char_data s e) = s ∧
  Element.get_char_data (Element.set_char_data s (Element.set_char_data s0 e)) = s.
Proof. split; reflexivity. Qed.

(** ** The base versions of the virtual functions *)

(** C7: the base [IsA] answers true exactly for the queried type
    [Type_Unknown]; the element, and so its own type id, plays no part. *)
Theorem IsA_only_Type_Unknown (Type_Unknown : KmlDomType) (e : Element)
    (type : KmlDomType) :
  Element.IsA Type_Unknown e type = true ↔ type = Type_Unknown.
Proof. unfold Element.IsA. apply bool_decide_eq_true. Qed.

(** C6: each of the five base extraction functions returns false for a null
    and for a non-null out-pointer alike, and the destination cell holds on
    return what it held on entry. *)
Theorem base_extraction_fails {double : Type} (e : Element)
    (b : out bool) (d : out double) (i en : out Z) (s : out string) :
  Element.SetBool e b = (false, b) ∧
  Element.SetDouble e d = (false, d) ∧
  Element.SetInt e i = (false, i) ∧
  Element.SetEnum e en = (false, en) ∧
  Element.SetString e s = (false, s).
Proof. split_and!; reflexivity. Qed.

(** ** The attach helpers *)

Lemma call_set_parent_keeps_parent n a (h h' : heap) b m q :
  call_set_parent n a h = Some (b, h') → has_parent h m q → has_parent h' m q.
Proof.
  intros Hc (e & Hm & Hq).
  destruct (call_set_parent_inv _ _ _ _ _ Hc) as (en & Hn & Hb).
  destruct b.
  - destruct Hb as (Hnull & _ & ->).
    destruct (decide (n = m)) as [->|Hne].
    + rewrite Hm in Hn. injection Hn as <-. congruence.
    + exists e. by rewrite lookup_insert_ne.
  - destruct Hb as [_ ->]. by exists e.
Qed.

Lemma call_set_parent_sets_parent c this (h h' : heap) :
  call_set_parent c (Some this) h = Some (true, h') → has_parent h' c this.
Proof.
  intros Hc. destruct (call_set_parent_inv _ _ _ _ _ Hc) as (e & Hn & _ & _ & ->).
  exists (with_parent (Some this) e). by rewrite lookup_insert_eq.
Qed.

Lemma app_singleton_ne {A} (l : list A) (x : A) : l ++ [x] ≠ l.
Proof.
  intros Heq. apply (f_equal length) in Heq.
  rewrite length_app in Heq. simpl in Heq. lia.
Qed.

(** C2, as stated, fails: with a null candidate [AddComplexChild] reports
    failure, not success. *)
Lemma AddComplexChild_null_reports_failure :
  AddComplexChild 1 NULL [Some 2%positive] two_in_slot
  = Some (false, [Some 2%positive], two_in_slot).
Proof. reflexivity. Qed.

(** C2, amended: [AddComplexChild] called with a null candidate returns
    false and leaves the collection, and every element, unchanged. *)
Theorem AddComplexChild_null (this : addr) (vec : list ptr) (h : heap) :
  AddComplexChild this NULL vec h = Some (false, vec, h).
Proof. reflexivity. Qed.

(** C5: [SetComplexChild] called with a null candidate returns true and
    leaves the slot null, whatever it held: the slot's reference to the
    previous occupant is gone.  No element is modified. *)
Theorem SetComplexChild_null (this : addr) (field : ptr) (h : heap) :
  SetComplexChild this NULL field h = Some (true, NULL, h).
Proof. reflexivity. Qed.

(** C3, as stated, fails for [SetComplexChild]: with a null candidate the
    slot that held element 2 is cleared although [set_parent] is not called
    on anything and no element changes. *)
Lemma slot_cleared_without_parent_assignment :
  SetComplexChild 1 NULL (Some 2%positive) two_in_slot = Some (true, NULL, two_in_slot) ∧
  NULL ≠ Some 2%positive.
Proof. split; [reflexivity|discriminate]. Qed.

(** C3, amended.  With an absent candidate [SetComplexChild] returns true,
    leaves the slot null and modifies no element (there is no
    parent-assignment), and [AddComplexChild] returns false with the
    collection and the elements unchanged.  With a live candidate [c] both
    helpers return exactly the result [ok] of [c->set_parent(this)]: when it
    is true the slot holds [c], the collection is the old one with [c]
    appended, and the parent of [c] is the owner; when it is false the slot,
    the collection and all elements are unchanged.  So the collection
    changes exactly when [set_parent] on the candidate succeeded, and
    whenever a helper reports failure nothing has changed. *)
Theorem attach_helpers_frame (this c : addr) (field : ptr) (vec : list ptr)
    (h : heap) :
  is_Some (h !! c) →
  (∃ h0, SetComplexChild this NULL field h = Some (true, NULL, h0) ∧
         ∀ n e, h0 !! n = Some e → h !! n = Some e) ∧
  AddComplexChild this NULL vec h = Some (false, vec, h) ∧
  ∃ ok hp h1 h2,
    call_set_parent c (Some this) h = Some (ok, hp) ∧
    SetComplexChild this (Some c) field h
      = Some (ok, if ok then Some c else field, h1) ∧
    AddComplexChild this (Some c) vec h
      = Some (ok, if ok then vec ++ [Some c] else vec, h2) ∧
    ((if ok then vec ++ [Some c] else vec) ≠ vec ↔ ok = true) ∧
    (ok = true → has_parent h1 c this ∧ has_parent h2 c this) ∧
    (ok = false → h1 = h ∧ h2 = h).
Proof.
  intros Hlive. split_and!; [by exists h|done|].
  destruct (call_set_parent_total c (Some this) h Hlive) as (ok & hp & Hc).
  exists ok, hp, hp, hp.
  unfold SetComplexChild, AddComplexChild. rewrite Hc. simpl.
  destruct ok.
  - pose proof (call_set_parent_sets_parent _ _ _ _ Hc) as Hp.
    split_and!; try done.
    split; [done|]. intros _. apply app_singleton_ne.
  - destruct (call_set_parent_inv _ _ _ _ _ Hc) as (e & _ & _ & ->).
    split_and!; try done.
Qed.

Lemma attach_helpers_frame_witness :
  is_Some (two_in_slot !! 3%positive) ∧
  ∃ h1 h2,
    SetComplexChild 1 (Some 3%positive) (Some 2%positive) two_in_slot
      = Some (true, Some 3%positive, h1) ∧
    AddComplexChild 1 (Some 3%positive) [Some 2%positive] two_in_slot
      = Some (true, [Some 2%positive; Some 3%positive], h2) ∧
    has_parent h1 3 1 ∧ has_parent h2 3 1.
Proof.
  assert (Hlive : is_Some (two_in_slot !! 3%positive)).
  { eexists. reflexivity. }
  split; [exact Hlive|].
  destruct (attach_helpers_frame 1 3 (Some 2%positive) [Some 2%positive]
              two_in_slot Hlive)
    as (_ & _ & ok & hp & h1 & h2 & Hc & Hset & Hadd & _ & Hok & _).
  assert (Htrue : ok = true).
  { assert (Hfst : fst <$> Some (ok, hp) = Some true)
      by (rewrite <- Hc; reflexivity).
    by injection Hfst. }
  rewrite Htrue in Hset, Hadd.
  exists h1, h2. split_and!; [exact Hset|exact Hadd|..]; by apply Hok.
Defined.

(** ** A parent, once set, stays *)

Lemma SetComplexChild_keeps_parent this child field (h h' : heap) b field' m q :
  SetComplexChild this child field h = Some (b, field', h') →
  has_parent h m q → has_parent h' m q.
Proof.
  unfold SetComplexChild. destruct child as [c|]; [|by intros [= _ _ <-]].
  destruct (call_set_parent c (Some this) h) as [[b0 h0]|] eqn:Hc; [|done].
  simpl. intros Hr Hp.
  assert (h' = h0) as -> by (destruct b0; congruence).
  by eapply call_set_parent_keeps_parent.
Qed.

Lemma AddComplexChild_keeps_parent this child vec (h h' : heap) b vec' m q :
  AddComplexChild this child vec h = Some (b, vec', h') →
  has_parent h m q → has_parent h' m q.
Proof.
  unfold AddComplexChild. destruct child as [c|]; [|by intros [= _ _ <-]].
  destruct (call_set_parent c (Some this) h) as [[b0 h0]|] eqn:Hc; [|done].
  simpl. intros Hr Hp.
  assert (h' = h0) as -> by (destruct b0; congruence).
  by eapply call_set_parent_keeps_parent.
Qed.

Lemma exec_keeps_parent c (h h' : heap) m q :
  exec c h = Some h' → has_parent h m q → has_parent h' m q.
Proof.
  intros Hx Hp. pose proof Hp as (e & Hm & Hq).
  destruct c as [n e0|n xmlns|n parent|n char_data|this child field|this child vec];
    simpl in Hx.
  - destruct (h !! n) eqn:Hn; [done|]. injection Hx as <-.
    exists e. rewrite lookup_insert_ne; [done|congruence].
  - destruct (h !! n) as [en|] eqn:Hn; [|done]. injection Hx as <-.
    destruct (decide (n = m)) as [->|Hne].
    + eexists. rewrite lookup_insert_eq. split; [done|]. simpl. congruence.
    + exists e. by rewrite lookup_insert_ne.
  - destruct (call_set_parent n parent h) as [[b h0]|] eqn:Hc; [|done].
    injection Hx as <-. by eapply call_set_parent_keeps_parent.
  - destruct (h !! n) as [en|] eqn:Hn; [|done]. injection Hx as <-.
    destruct (decide (n = m)) as [->|Hne].
    + eexists. rewrite lookup_insert_eq. split; [done|]. simpl. congruence.
    + exists e. by rewrite lookup_insert_ne.
  - destruct (SetComplexChild this child field h) as [[[b f0] h0]|] eqn:Hc; [|done].
    injection Hx as <-. by eapply SetComplexChild_keeps_parent.
  - destruct (AddComplexChild this child vec h) as [[[b v0] h0]|] eqn:Hc; [|done].
    injection Hx as <-. by eapply AddComplexChild_keeps_parent.
Qed.

Lemma run_keeps_parent cs : ∀ (h h' : heap) m q,
  run cs h = Some h' → has_parent h m q → has_parent h' m q.
Proof.
  induction cs as [|c cs IH]; intros h h' m q; simpl.
  - by intros [= <-].
  - destruct (exec c h) as [h0|] eqn:Hx; [|done]. simpl.
    intros Hr Hp. eapply IH; [done|]. by eapply exec_keeps_parent.
Qed.

Lemma has_parent_attach_fails (h : heap) p q this field vec :
  has_parent h p q →
  SetComplexChild this (Some p) field h = Some (false, field, h) ∧
  AddComplexChild this (Some p) vec h = Some (false, vec, h).
Proof.
  intros Hp. unfold SetComplexChild, AddComplexChild.
  by rewrite (has_parent_call_set_parent p (Some this) h q Hp).
Qed.

(** C9: a child [p] installed in a slot of [this] by [SetComplexChild] and
    later removed from it, by a [SetComplexChild] on that slot that replaces
    or clears it, keeps [this] as its parent: the removal does not reset it,
    and neither does any sequence of calls made before or after.  So from
    then on every [set_parent] on [p] returns false, and so does every
    attempt to attach [p] under any element with either helper, leaving the
    slot or collection as it was. *)
Theorem detached_child_never_reattached
    (this p : addr) (child slot0 slot1 slot2 : ptr)
    (h0 h1 h2 h3 h4 : heap) (cs1 cs2 : list call) :
  SetComplexChild this (Some p) slot0 h0 = Some (true, slot1, h1) →
  run cs1 h1 = Some h2 →
  SetComplexChild this child slot1 h2 = Some (true, slot2, h3) →
  run cs2 h3 = Some h4 →
  slot1 = Some p ∧ slot2 = child ∧ slot2 ≠ Some p ∧
  has_parent h3 p this ∧ has_parent h4 p this ∧
  ∀ (owner : addr) (a field : ptr) (vec : list ptr),
    call_set_parent p a h4 = Some (false, h4) ∧
    SetComplexChild owner (Some p) field h4 = Some (false, field, h4) ∧
    AddComplexChild owner (Some p) vec h4 = Some (false, vec, h4).
Proof.
  intros Hin Hr1 Hout Hr2.
  assert (Hp1 : slot1 = Some p ∧ has_parent h1 p this).
  { unfold SetComplexChild in Hin.
    destruct (call_set_parent p (Some this) h0) as [[b h']|] eqn:Hc; [|done].
    simpl in Hin. destruct b; [|done]. injection Hin as <- <-.
    split; [done|]. by eapply call_set_parent_sets_parent. }
  destruct Hp1 as [-> Hp1].
  pose proof (run_keeps_parent _ _ _ _ _ Hr1 Hp1) as Hp2.
  pose proof (SetComplexChild_keeps_parent _ _ _ _ _ _ _ _ _ Hout Hp2) as Hp3.
  pose proof (run_keeps_parent _ _ _ _ _ Hr2 Hp3) as Hp4.
  assert (Hslot : slot2 = child ∧ child ≠ Some p).
  { destruct child as [c|]; [|by injection Hout as <- _].
    destruct (decide (c = p)) as [->|Hne].
    - destruct (has_parent_attach_fails h2 p this this (Some p) [] Hp2) as [Hf _].
      congruence.
    - unfold SetComplexChild in Hout.
      destruct (call_set_parent c (Some this) h2) as [[b h']|]; [|done].
      simpl in Hout. destruct b; [|done]. injection Hout as <- _.
      split; congruence. }
  destruct Hslot as [-> Hne].
  split_and!; try done.
  intros owner a field vec. split.
  - by eapply has_parent_call_set_parent.
  - by eapply has_parent_attach_fails.
Qed.

Lemma detached_child_never_reattached_witness :
  ∃ h1 h2 h3 h4 : heap,
    SetComplexChild 1 (Some 2%positive) NULL three_roots
      = Some (true, Some 2%positive, h1) ∧
    run [Call_set_char_data 2 "Placemark text"] h1 = Some h2 ∧
    SetComplexChild 1 (Some 3%positive) (Some 2%positive) h2
      = Some (true, Some 3%positive, h3) ∧
    run [New 4 (blank 4); Call_set_parent 2 (Some 4%positive)] h3 = Some h4 ∧
    has_parent h4 2 1 ∧
    SetComplexChild 4 (Some 2%positive) NULL h4 = Some (false, NULL, h4) ∧
    AddComplexChild 3 (Some 2%positive) [] h4 = Some (false, [], h4).
Proof.
  pose (h2 := <[2%positive := with_char_data "Placemark text"
                  (with_parent (Some 1%positive) (blank 2))]> two_in_slot).
  pose (h3 := <[3%positive := with_parent (Some 1%positive) (blank 3)]> h2).
  pose (h4 := <[4%positive := blank 4]> h3).
  exists two_in_slot, h2, h3, h4.
  assert (Hin : SetComplexChild 1 (Some 2%positive) NULL three_roots
                = Some (true, Some 2%positive, two_in_slot)) by reflexivity.
  assert (Hr1 : run [Call_set_char_data 2 "Placemark text"] two_in_slot = Some h2)
    by reflexivity.
  assert (Hout : SetComplexChild 1 (Some 3%positive) (Some 2%positive) h2
                 = Some (true, Some 3%positive, h3)) by reflexivity.
  assert (Hr2 : run [New 4 (blank 4); Call_set_parent 2 (Some 4%positive)] h3
                = Some h4) by reflexivity.
  destruct (detached_child_never_reattached _ _ _ _ _ _ _ _ _ _ _ _ _
              Hin Hr1 Hout Hr2) as (_ & _ & _ & _ & Hp & Hall).
  split_and!; [exact Hin|exact Hr1|exact Hout|exact Hr2|exact Hp|..].
  - apply (Hall 4%positive NULL NULL []).
  - apply (Hall 3%positive NULL NULL []).
Defined.

(** ** [Field]: the extraction functions *)

Lemma Set_contract {T : Type} (parse : string → option T) (f : Element) :
  lexical_contract parse f (Field.Set_ parse f).
Proof.
  unfold lexical_contract, Field.Set_. split_and!; [done|..].
  - by intros old ->.
  - by intros old v ->.
Qed.

(** C8: each of [Field]'s five extraction functions fails, converting
    nothing, when the out-pointer is null; when the out-pointer is non-null
    it fails and leaves the destination as it was if [char_data] does not
    lexically match the target type, and otherwise writes the converted
    value and returns true. *)
Theorem Field_extraction_contract {double : Type}
    (parse_bool : string → option bool) (parse_double : string → option double)
    (parse_int : string → option Z) (parse_enum : KmlDomType → string → option Z)
    (parse_string : string → option string) (f : Element) :
  lexical_contract parse_bool f (Field.SetBool parse_bool f) ∧
  lexical_contract parse_double f (Field.SetDouble parse_double f) ∧
  lexical_contract parse_int f (Field.SetInt parse_int f) ∧
  lexical_contract (parse_enum (Element.Type_ f)) f (Field.SetEnum parse_enum f) ∧
  lexical_contract parse_string f (Field.SetString parse_string f).
Proof. split_and!; apply Set_contract. Qed.

(** ** Further properties of the header's functions *)

Lemma call_set_parent_frame n a (h h' : heap) b :
  call_set_parent n a h = Some (b, h') →
  (∀ m, m ≠ n → h' !! m = h !! m) ∧
  ∃ e, h !! n = Some e ∧ h' !! n = Some (if b then with_parent a e else e).
Proof.
  intros Hc. destruct (call_set_parent_inv _ _ _ _ _ Hc) as (e & Hn & Hb).
  destruct b.
  - destruct Hb as (_ & _ & ->). split.
    + intros m Hm. by rewrite lookup_insert_ne.
    + exists e. by rewrite lookup_insert_eq.
  - destruct Hb as [_ ->]. split; [done|]. by exists e.
Qed.







(** X1: the parent pointer is written at most once.  Once an element has a
    (non-null) parent, no sequence of object creations, setter calls,
    [set_parent] calls and attach-helper calls changes it. *)
Theorem parent_is_write_once (cs : list call) (h h' : heap) (n p : addr) :
  has_parent h n p → run cs h = Some h' →
  has_parent h' n p ∧ parent_of h' n = Some (Some p).
Proof.
  intros Hp Hr. pose proof (run_keeps_parent _ _ _ _ _ Hr Hp) as Hp'.
  split; [done|]. destruct Hp' as (e & Hn & Hq).
  unfold parent_of. by rewrite Hn, <- Hq.
Qed.

Lemma parent_is_write_once_witness :
  has_parent two_in_slot 2 1 ∧
  ∃ h', run [Call_set_parent 2 (Some 3%positive);
             Call_SetComplexChild 3 (Some 2%positive) NULL;
             Call_set_char_data 2 "x"; New 4 (blank 4);
             Call_AddComplexChild 4 (Some 2%positive) []] two_in_slot = Some h' ∧
        parent_of h' 2 = Some (Some 1%positive).
Proof.
  assert (Hp : has_parent two_in_slot 2 1) by (eexists; split; reflexivity).
  split; [exact Hp|].
  pose (h' := <[4%positive := blank 4]>
                (<[2%positive := with_char_data "x"
                     (with_parent (Some 1%positive) (blank 2))]> two_in_slot)).
  exists h'.
  assert (Hr : run [Call_set_parent 2 (Some 3%positive);
                    Call_SetComplexChild 3 (Some 2%positive) NULL;
                    Call_set_char_data 2 "x"; New 4 (blank 4);
                    Call_AddComplexChild 4 (Some 2%positive) []] two_in_slot
               = Some h') by reflexivity.
  split; [exact Hr|].
  exact (proj2 (parent_is_write_once _ _ _ _ _ Hp Hr)).
Defined.



Lemma attach_result (this c : addr) (e : Element) (field : ptr)
    (vec : list ptr) (h : heap) :
  h !! c = Some e →
  let ok := bool_decide (parent_ e = NULL ∧ c ≠ this) in
  let h' := if ok then <[c := with_parent (Some this) e]> h else h in
  SetComplexChild this (Some c) field h
    = Some (ok, if ok then Some c else field, h') ∧
  AddComplexChild this (Some c) vec h
    = Some (ok, if ok then vec ++ [Some c] else vec, h').
Proof.
  intros Hc ok h'. subst ok h'.
  unfold SetComplexChild, AddComplexChild, call_set_parent.
  rewrite Hc. simpl. unfold Element.set_parent.
  destruct (decide (parent_ e = NULL)) as [Hp|Hp].
  - rewrite (bool_decide_eq_false_2 (parent_ e ≠ NULL)) by (intros Hn; by apply Hn).
    destruct (decide (c = this)) as [->|Hne].
    + rewrite (bool_decide_eq_true_2 (Some this = Some this)) by done.
      rewrite (bool_decide_eq_false_2 (parent_ e = NULL ∧ this ≠ this))
        by (intros [_ Hn]; by apply Hn).
      simpl. by rewrite insert_id.
    + rewrite (bool_decide_eq_false_2 (Some this = Some c)) by congruence.
      by rewrite (bool_decide_eq_true_2 (parent_ e = NULL ∧ c ≠ this)).
  - rewrite (bool_decide_eq_true_2 (parent_ e ≠ NULL)) by done.
    rewrite (bool_decide_eq_false_2 (parent_ e = NULL ∧ c ≠ this))
      by (by intros [? _]).
    simpl. by rewrite insert_id.
Qed.

Lemma attach_unparented (this c : addr) (e : Element) (field : ptr)
    (vec : list ptr) (h : heap) :
  h !! c = Some e → parent_ e = NULL → c ≠ this →
  SetComplexChild this (Some c) field h
    = Some (true, Some c, <[c := with_parent (Some this) e]> h) ∧
  AddComplexChild this (Some c) vec h
    = Some (true, vec ++ [Some c], <[c := with_parent (Some this) e]> h).
Proof.
  intros Hc Hp Hne. pose proof (attach_result this c e field vec h Hc) as Hr.
  simpl in Hr. by rewrite bool_decide_eq_true_2 in Hr.
Qed.

(** X3: for a live candidate [c], both attach helpers succeed exactly when
    [c] has no parent and is not the owner itself.  On success the slot
    holds [c], the collection is the old one with [c] appended, and the
    parent of [c] is the owner; on failure the slot, the collection and the
    elements are unchanged. *)
Theorem attach_succeeds_iff_unparented (this c : addr) (e : Element)
    (field : ptr) (vec : list ptr) (h : heap) :
  h !! c = Some e →
  let ok := bool_decide (parent_ e = NULL ∧ c ≠ this) in
  ∃ h1 h2,
    SetComplexChild this (Some c) field h
      = Some (ok, if ok then Some c else field, h1) ∧
    AddComplexChild this (Some c) vec h
      = Some (ok, if ok then vec ++ [Some c] else vec, h2) ∧
    (ok = true → has_parent h1 c this ∧ has_parent h2 c this) ∧
    (ok = false → h1 = h ∧ h2 = h).
Proof.
  intros Hc ok.
  destruct (attach_result this c e field vec h Hc) as [Hset Hadd].
  cbv zeta in Hset, Hadd. fold ok in Hset, Hadd.
  eexists _, _. split_and!; [exact Hset|exact Hadd|..].
  - intros ->. split; exists (with_parent (Some this) e);
      by rewrite lookup_insert_eq.
  - by intros ->.
Qed.

Lemma attach_succeeds_iff_unparented_witness :
  three_roots !! 3%positive = Some (blank 3) ∧
  (∃ h1, SetComplexChild 1 (Some 3%positive) NULL three_roots
           = Some (true, Some 3%positive, h1) ∧ has_parent h1 3 1) ∧
  SetComplexChild 3 (Some 3%positive) NULL three_roots
    = Some (false, NULL, three_roots).
Proof.
  assert (Hc : three_roots !! 3%positive = Some (blank 3)) by reflexivity.
  split; [exact Hc|]. split.
  - destruct (attach_succeeds_iff_unparented 1 3 _ NULL [] _ Hc)
      as (h1 & h2 & Hset & _ & Hok & _).
    exists h1. split; [exact Hset|]. by apply Hok.
  - destruct (attach_succeeds_iff_unparented 3 3 _ NULL [] _ Hc)
      as (h1 & h2 & Hset & _ & _ & Hfail).
    destruct (Hfail eq_refl) as [Hh _]. rewrite Hh in Hset. exact Hset.
Defined.

(** X4: [AddComplexChild], and [SetComplexChild] on an empty slot, change
    nothing but the candidate's parent pointer.  For a candidate that is
    null or live both return, and afterwards every element other than the
    candidate, the owner included, is as it was, the candidate has kept all
    its other members, and with a null candidate no element has changed. *)
Theorem attach_changes_only_candidate_parent (this : addr) (child : ptr)
    (vec : list ptr) (h : heap) :
  (∀ c, child = Some c → is_Some (h !! c)) →
  ∃ b vec' b0 field' h',
    AddComplexChild this child vec h = Some (b, vec', h') ∧
    SetComplexChild this child NULL h = Some (b0, field', h') ∧
    (∀ m, child ≠ Some m → h' !! m = h !! m) ∧
    h' !! this = h !! this ∧
    (child = NULL → h' = h) ∧
    (∀ c, child = Some c →
       ∃ e e', h !! c = Some e ∧ h' !! c = Some e' ∧
               e' = with_parent (parent_ e') e).
Proof.
  intros Hlive. destruct child as [c|].
  - destruct (call_set_parent_total c (Some this) h (Hlive c eq_refl))
      as (b & h' & Hc).
    exists b, (if b then vec ++ [Some c] else vec), b,
      (if b then Some c else NULL), h'.
    destruct (call_set_parent_frame _ _ _ _ _ Hc) as (Hother & e & Hn & Hn').
    split_and!.
    + unfold AddComplexChild. rewrite Hc. simpl. by destruct b.
    + unfold SetComplexChild. rewrite Hc. simpl. by destruct b.
    + intros m Hm. apply Hother. congruence.
    + destruct (decide (this = c)) as [->|Hne]; [|by apply Hother].
      rewrite (call_set_parent_self c h e Hn) in Hc. by injection Hc as _ <-.
    + done.
    + intros c' [= <-]. eexists e, _. split_and!; [done..|].
      destruct b; [done|]. by destruct e.
  - exists false, vec, true, NULL, h. split_and!; done.
Qed.

Lemma attach_changes_only_candidate_parent_witness :
  (∀ c, Some 3%positive = Some c → is_Some (two_in_slot !! c)) ∧
  ∃ h', AddComplexChild 1 (Some 3%positive) [Some 2%positive] two_in_slot
          = Some (true, [Some 2%positive; Some 3%positive], h') ∧
        h' !! 1%positive = two_in_slot !! 1%positive ∧
        h' !! 2%positive = two_in_slot !! 2%positive.
Proof.
  assert (Hlive : ∀ c, Some 3%positive = Some c → is_Some (two_in_slot !! c)).
  { intros c [= <-]. eexists. reflexivity. }
  split; [exact Hlive|].
  destruct (attach_changes_only_candidate_parent 1 (Some 3%positive)
              [Some 2%positive] two_in_slot Hlive)
    as (b & vec' & b0 & field' & h' & Hadd & _ & Hother & Hthis & _).
  exists h'.
  assert (Hres : fst <$> Some (b, vec', h')
                 = Some (true, [Some 2%positive; Some 3%positive]))
    by (rewrite <- Hadd; reflexivity).
  injection Hres as -> ->.
  split_and!; [exact Hadd|exact Hthis|].
  apply Hother. discriminate.
Defined.

(** X5: the single-parent rule does not rule out cycles longer than one.
    Two distinct live elements without parents can each be installed as the
    other's child: both [SetComplexChild] calls succeed, and afterwards each
    is the parent of the other. *)
Theorem two_element_parent_cycle (a b : addr) (ea eb : Element) (h : heap) :
  a ≠ b → h !! a = Some ea → h !! b = Some eb →
  parent_ ea = NULL → parent_ eb = NULL →
  ∃ h1 h2,
    SetComplexChild b (Some a) NULL h = Some (true, Some a, h1) ∧
    SetComplexChild a (Some b) NULL h1 = Some (true, Some b, h2) ∧
    has_parent h2 a b ∧ has_parent h2 b a.
Proof.
  intros Hne Ha Hb Hpa Hpb.
  exists (<[a := with_parent (Some b) ea]> h),
         (<[b := with_parent (Some a) eb]> (<[a := with_parent (Some b) ea]> h)).
  split_and!.
  - by apply (attach_unparented b a ea NULL []).
  - apply (attach_unparented a b eb NULL []); [|done..].
    by rewrite lookup_insert_ne.
  - exists (with_parent (Some b) ea).
    rewrite lookup_insert_ne by done. by rewrite lookup_insert_eq.
  - exists (with_parent (Some a) eb). by rewrite lookup_insert_eq.
Qed.

Lemma two_element_parent_cycle_witness :
  ∃ h1 h2,
    SetComplexChild 2 (Some 1%positive) NULL three_roots
      = Some (true, Some 1%positive, h1) ∧
    SetComplexChild 1 (Some 2%positive) NULL h1
      = Some (true, Some 2%positive, h2) ∧
    has_parent h2 1 2 ∧ has_parent h2 2 1.
Proof.
  apply (two_element_parent_cycle 1 2 (blank 1) (blank 2) three_roots);
    [discriminate|reflexivity..].
Defined.

(** X6: [AddComplexChild] keeps a collection well formed.  If the entries
    of the collection are distinct, non-null children whose parent is the
    owner, and the candidate is null or live, the call returns and the
    resulting collection has the same property in the resulting heap: no
    null entry, no element twice, every entry's parent is the owner. *)
Theorem AddComplexChild_keeps_children_of (this : addr) (child : ptr)
    (vec : list ptr) (h : heap) :
  children_of h this vec →
  (∀ c, child = Some c → is_Some (h !! c)) →
  ∃ b vec' h',
    AddComplexChild this child vec h = Some (b, vec', h') ∧
    children_of h' this vec'.
Proof.
  intros [Hnd Hall] Hlive. destruct child as [c|].
  - destruct (Hlive c eq_refl) as [e Hc].
    destruct (attach_result this c e NULL vec h Hc) as [_ Hadd].
    cbv zeta in Hadd. eexists _, _, _. split; [exact Hadd|].
    destruct (bool_decide (parent_ e = NULL ∧ c ≠ this)) eqn:Hok;
      [|by split].
    apply bool_decide_eq_true_1 in Hok as [Hnull _].
    assert (Hfresh : Some c ∉ vec).
    { intros Hin. destruct (Hall _ Hin) as (c' & [= <-] & e' & Hc' & Hp').
      congruence. }
    split.
    + apply NoDup_app. split_and!; [done| |apply NoDup_singleton].
      intros p Hp [= ->]%list_elem_of_singleton. done.
    + intros p [Hp|[= ->]%list_elem_of_singleton]%elem_of_app.
      * destruct (Hall _ Hp) as (c' & -> & Hc').
        exists c'. split; [done|].
        eapply AddComplexChild_keeps_parent; [exact Hadd|done].
      * exists c. split; [done|].
        exists (with_parent (Some this) e). by rewrite lookup_insert_eq.
  - exists false, vec, h. by split.
Qed.

Lemma AddComplexChild_keeps_children_of_witness :
  children_of two_in_slot 1 [Some 2%positive] ∧
  ∃ b vec' h',
    AddComplexChild 1 (Some 3%positive) [Some 2%positive] two_in_slot
      = Some (b, vec', h') ∧
    children_of h' 1 vec'.
Proof.
  assert (Hinv : children_of two_in_slot 1 [Some 2%positive]).
  { split; [apply NoDup_singleton|].
    intros p [= ->]%list_elem_of_singleton. exists 2%positive.
    split; [done|]. eexists. split; reflexivity. }
  split; [exact Hinv|].
  apply (AddComplexChild_keeps_children_of 1 (Some 3%positive) _ _ Hinv).
  intros c [= <-]. eexists. reflexivity.
Defined.

(** X7: [SetComplexChild] keeps a slot well formed.  If the slot is null or
    holds a child whose parent is the owner, and the candidate is null or
    live, the call returns and the resulting slot is again null or holds a
    child whose parent is the owner. *)
Theorem SetComplexChild_keeps_slot_of (this : addr) (child field : ptr)
    (h : heap) :
  slot_of h this field →
  (∀ c, child = Some c → is_Some (h !! c)) →
  ∃ b field' h',
    SetComplexChild this child field h = Some (b, field', h') ∧
    slot_of h' this field'.
Proof.
  intros Hslot Hlive. destruct child as [c|].
  - destruct (Hlive c eq_refl) as [e Hc].
    destruct (attach_result this c e field [] h Hc) as [Hset _].
    cbv zeta in Hset. eexists _, _, _. split; [exact Hset|].
    destruct (bool_decide (parent_ e = NULL ∧ c ≠ this)); [|done].
    intros c' [= <-]. exists (with_parent (Some this) e).
    by rewrite lookup_insert_eq.
  - exists true, NULL, h. split; [done|]. by intros c.
Qed.

Lemma SetComplexChild_keeps_slot_of_witness :
  slot_of two_in_slot 1 (Some 2%positive) ∧
  ∃ b field' h',
    SetComplexChild 1 (Some 3%positive) (Some 2%positive) two_in_slot
      = Some (b, field', h') ∧
    slot_of h' 1 field'.
Proof.
  assert (Hinv : slot_of two_in_slot 1 (Some 2%positive)).
  { intros c [= <-]. eexists. split; reflexivity. }
  split; [exact Hinv|].
  apply (SetComplexChild_keeps_slot_of 1 (Some 3%positive) _ _ Hinv).
  intros c [= <-]. eexists. reflexivity.
Defined.

(** X8: [set_parent] with a null argument never changes the element; it
    returns true exactly when the element has no parent. *)
Theorem set_parent_null_argument (this : addr) (e : Element) :
  Element.set_parent this NULL e = (bool_decide (parent_ e = NULL), e).
Proof.
  unfold Element.set_parent. by destruct e as [x [p|] t s u m].
Qed.

(** X9: the two string setters are independent of each other and of the
    parent rule.  [get_default_xmlns] returns what [set_default_xmlns]
    stored; each setter leaves the other string, the type and the parent as
    they were; the two setters commute; and [set_parent] gives the same
    answer, and the same parent, before or after a setter. *)
Theorem setters_are_independent (this : addr) (parent : ptr) (e : Element)
    (xmlns char_data : string) :
  Element.get_default_xmlns (Element.set_default_xmlns xmlns e) = xmlns ∧
  Element.get_default_xmlns (Element.set_char_data char_data e)
    = Element.get_default_xmlns e ∧
  Element.get_char_data (Element.set_default_xmlns xmlns e)
    = Element.get_char_data e ∧
  Element.set_default_xmlns xmlns (Element.set_char_data char_data e)
    = Element.set_char_data char_data (Element.set_default_xmlns xmlns e) ∧
  Element.set_parent this parent (Element.set_char_data char_data e)
    = prod_map id (Element.set_char_data char_data)
        (Element.set_parent this parent e) ∧
  Element.set_parent this parent (Element.set_default_xmlns xmlns e)
    = prod_map id (Element.set_default_xmlns xmlns)
        (Element.set_parent this parent e).
Proof.
  split_and!; try reflexivity.
  - unfold Element.set_parent. simpl.
    by destruct (bool_decide (parent_ e ≠ NULL) || bool_decide (parent = Some this)).
  - unfold Element.set_parent. simpl.
    by destruct (bool_decide (parent_ e ≠ NULL) || bool_decide (parent = Some this)).
Qed.

(** X10: ownership is exclusive.  Once either helper has attached [c] under
    an owner, then after any further sequence of calls every attempt to
    attach [c] again, with either helper and under any owner (the same one
    included), reports failure and leaves slot, collection and heap
    unchanged. *)
Theorem attached_child_is_exclusive (this c : addr) (field field1 : ptr)
    (vec vec1 : list ptr) (h h1 h2 : heap) (cs : list call) :
  SetComplexChild this (Some c) field h = Some (true, field1, h1) ∨
  AddComplexChild this (Some c) vec h = Some (true, vec1, h1) →
  run cs h1 = Some h2 →
  ∀ (owner : addr) (field' : ptr) (vec' : list ptr),
    SetComplexChild owner (Some c) field' h2 = Some (false, field', h2) ∧
    AddComplexChild owner (Some c) vec' h2 = Some (false, vec', h2).
Proof.
  intros Hattach Hr owner field' vec'.
  assert (Hp : has_parent h1 c this).
  { apply call_set_parent_sets_parent with h.
    unfold SetComplexChild, AddComplexChild in Hattach.
    destruct (call_set_parent c (Some this) h) as [[b h0]|];
      [|by destruct Hattach].
    simpl in Hattach. by destruct Hattach as [Ha|Ha]; destruct b; simplify_eq. }
  apply has_parent_attach_fails with this.
  by eapply run_keeps_parent.
Qed.

Lemma attached_child_is_exclusive_witness :
  let h1 := <[3%positive := with_parent (Some 1%positive) (blank 3)]> two_in_slot in
  AddComplexChild 1 (Some 3%positive) [Some 2%positive] two_in_slot
    = Some (true, [Some 2%positive; Some 3%positive], h1) ∧
  run [Call_set_char_data 3 "moved"] h1
    = Some (<[3%positive := with_char_data "moved"
                (with_parent (Some 1%positive) (blank 3))]> h1) ∧
  SetComplexChild 2 (Some 3%positive) NULL
    (<[3%positive := with_char_data "moved"
         (with_parent (Some 1%positive) (blank 3))]> h1)
  = Some (false, NULL,
          <[3%positive := with_char_data "moved"
              (with_parent (Some 1%positive) (blank 3))]> h1).
Proof.
  intros h1.
  assert (Hadd : AddComplexChild 1 (Some 3%positive) [Some 2%positive] two_in_slot
                 = Some (true, [Some 2%positive; Some 3%positive], h1))
    by reflexivity.
  assert (Hr : run [Call_set_char_data 3 "moved"] h1
               = Some (<[3%positive := with_char_data "moved"
                           (with_parent (Some 1%positive) (blank 3))]> h1))
    by reflexivity.
  split_and!; [exact Hadd|exact Hr|].
  exact (proj1 (attached_child_is_exclusive 1 3 NULL NULL _ _ _ _ _ _
                  (or_intror Hadd) Hr 2%positive NULL [])).
Defined.

Lemma slot_of_mono (h h' : heap) this field :
  (∀ m q, has_parent h m q → has_parent h' m q) →
  slot_of h this field → slot_of h' this field.
Proof. intros Hmono Hslot c Hc. by apply Hmono, Hslot. Qed.

Lemma children_of_mono (h h' : heap) this vec :
  (∀ m q, has_parent h m q → has_parent h' m q) →
  children_of h this vec → children_of h' this vec.
Proof.
  intros Hmono [Hnd Hall]. split; [done|]. intros p Hp.
  destruct (Hall p Hp) as (c & -> & Hc). exists c. split; [done|].
  by apply Hmono.
Qed.

Lemma SetComplexChild_slot_of this child field (h h' : heap) b field' :
  SetComplexChild this child field h = Some (b, field', h') →
  slot_of h this field → slot_of h' this field'.
Proof.
  intros Hset Hslot. destruct child as [c|].
  - unfold SetComplexChild in Hset.
    destruct (call_set_parent c (Some this) h) as [[b0 h0]|] eqn:Hc; [|done].
    simpl in Hset. destruct b0; injection Hset as <- <- <-.
    + intros c' [= <-]. by eapply call_set_parent_sets_parent.
    + by destruct (call_set_parent_inv _ _ _ _ _ Hc) as (e & _ & _ & ->).
  - injection Hset as <- <- <-. by intros c.
Qed.

Lemma AddComplexChild_children_of this child vec (h h' : heap) b vec' :
  AddComplexChild this child vec h = Some (b, vec', h') →
  children_of h this vec → children_of h' this vec'.
Proof.
  intros Hadd Hch. destruct child as [c|]; [|by injection Hadd as <- <- <-].
  pose proof Hadd as Hadd0. unfold AddComplexChild in Hadd.
  destruct (call_set_parent c (Some this) h) as [[b0 h0]|] eqn:Hc; [|done].
  simpl in Hadd. destruct b0; injection Hadd as <- <- <-.
  - destruct (call_set_parent_inv _ _ _ _ _ Hc) as (e & Hn & Hnull & _ & _).
    destruct Hch as [Hnd Hall].
    assert (Hfresh : Some c ∉ vec).
    { intros Hin. destruct (Hall _ Hin) as (c' & [= <-] & e' & Hc' & Hp').
      congruence. }
    split.
    + apply NoDup_app. split_and!; [done| |apply NoDup_singleton].
      intros p Hp [= ->]%list_elem_of_singleton. done.
    + intros p [Hp|[= ->]%list_elem_of_singleton]%elem_of_app.
      * destruct (Hall _ Hp) as (c' & -> & Hc').
        exists c'. split; [done|].
        by eapply call_set_parent_keeps_parent.
      * exists c. split; [done|]. by eapply call_set_parent_sets_parent.
  - by destruct (call_set_parent_inv _ _ _ _ _ Hc) as (e & _ & _ & ->).
Qed.

Lemma exec_owner_keeps_ownership this oc (h h' : heap) field field' vec vec' :
  exec_owner this oc (h, field, vec) = Some (h', field', vec') →
  slot_of h this field ∧ children_of h this vec →
  slot_of h' this field' ∧ children_of h' this vec'.
Proof.
  intros Hx [Hslot Hch]. destruct oc as [child|child|c]; simpl in Hx.
  - destruct (SetComplexChild this child field h) as [[[b f0] h0]|] eqn:Hset;
      [|done].
    injection Hx as <- <- <-. split.
    + by eapply SetComplexChild_slot_of.
    + eapply children_of_mono; [|done]. intros m q.
      by eapply SetComplexChild_keeps_parent.
  - destruct (AddComplexChild this child vec h) as [[[b v0] h0]|] eqn:Hadd;
      [|done].
    injection Hx as <- <- <-. split.
    + eapply slot_of_mono; [|done]. intros m q.
      by eapply AddComplexChild_keeps_parent.
    + by eapply AddComplexChild_children_of.
  - destruct (exec c h) as [h0|] eqn:Hc; [|done].
    injection Hx as <- <- <-. split.
    + eapply slot_of_mono; [|done]. intros m q. by eapply exec_keeps_parent.
    + eapply children_of_mono; [|done]. intros m q. by eapply exec_keeps_parent.
Qed.

Lemma run_owner_keeps_ownership this ocs :
  ∀ (h h' : heap) field field' vec vec',
    run_owner this ocs (h, field, vec) = Some (h', field', vec') →
    slot_of h this field ∧ children_of h this vec →
    slot_of h' this field' ∧ children_of h' this vec'.
Proof.
  induction ocs as [|oc ocs IH]; intros h h' field field' vec vec'.
  - simpl. by intros [= <- <- <-].
  - change (run_owner this (oc :: ocs) (h, field, vec))
      with (exec_owner this oc (h, field, vec) ≫= run_owner this ocs).
    destruct (exec_owner this oc (h, field, vec)) as [[[h0 f0] v0]|] eqn:Hx;
      [|done].
    simpl. intros Hr Hinv. eapply IH; [exact Hr|].
    by eapply exec_owner_keeps_ownership.
Qed.

(** X11: an owner's slot and collection stay well formed through any
    sequence of calls.  Start with a slot that is null or holds a child of
    the owner and a collection of distinct, non-null children of the owner;
    let the owner call [SetComplexChild] on the slot and [AddComplexChild]
    on the collection, with any candidates, interleaved with any other
    calls (object creations, setters, [set_parent], attach-helper calls on
    other slots and collections).  Then the slot as it is after the
    sequence is null or holds a child of the owner, and the collection as it
    is after the sequence holds distinct, non-null children of the owner. *)
Theorem ownership_is_stable (this : addr) (ocs : list owner_call)
    (h h' : heap) (field field' : ptr) (vec vec' : list ptr) :
  slot_of h this field → children_of h this vec →
  run_owner this ocs (h, field, vec) = Some (h', field', vec') →
  slot_of h' this field' ∧ children_of h' this vec'.
Proof.
  intros Hslot Hch Hr. by eapply run_owner_keeps_ownership.
Qed.

Lemma ownership_is_stable_witness :
  let ocs := [Other (Call_set_parent 2 NULL);
              Own_AddComplexChild (Some 3%positive);
              Own_SetComplexChild NULL;
              Other (Call_SetComplexChild 3 (Some 3%positive) NULL);
              Own_AddComplexChild (Some 3%positive);
              Other (New 4 (blank 4));
              Own_SetComplexChild (Some 4%positive)] in
  let h' := <[4%positive := with_parent (Some 1%positive) (blank 4)]>
              (<[3%positive := with_parent (Some 1%positive) (blank 3)]>
                 two_in_slot) in
  slot_of two_in_slot 1 (Some 2%positive) ∧
  children_of two_in_slot 1 [] ∧
  run_owner 1 ocs (two_in_slot, Some 2%positive, [])
    = Some (h', Some 4%positive, [Some 3%positive]) ∧
  slot_of h' 1 (Some 4%positive) ∧ children_of h' 1 [Some 3%positive].
Proof.
  intros ocs h'.
  assert (Hslot : slot_of two_in_slot 1 (Some 2%positive)).
  { intros c [= <-]. eexists. split; reflexivity. }
  assert (Hvec : children_of two_in_slot 1 []).
  { split; [apply NoDup_nil_2|]. by intros p Hp%elem_of_nil. }
  assert (Hr : run_owner 1 ocs (two_in_slot, Some 2%positive, [])
               = Some (h', Some 4%positive, [Some 3%positive])) by reflexivity.
  split_and!; [exact Hslot|exact Hvec|exact Hr|..];
    apply (ownership_is_stable 1 ocs _ _ _ _ _ _ Hslot Hvec Hr).
Defined.
